(** * PowerShare AIDL service (aidl/powershare/PowerShare.cpp)

    A shallow embedding of the four binder methods of the oplus PowerShare
    HAL and of the small part of the platform they talk to: one path of the
    filesystem, [stat], android-base's [ReadFileToString] and
    [WriteStringToFile], and the log. *)

From Stdlib Require Import ZArith String Ascii List Bool.
From stdpp Require Import base option strings gmap.

Local Open Scope Z_scope.
Local Open Scope string_scope.

(** ** The platform *)

Module Platform.

(** How a write that does not go through fails: the open is refused and
    nothing is touched; or the open, which truncates, succeeds and a
    [write(2)] fails after [landed] bytes, whereupon the path is unlinked,
    with or without success. *)
Inductive WriteFailure :=
| OpenRefused
| WriteFails (landed : nat) (unlinked : bool).

(** A file as the service can observe it: its bytes, whether an open for
    reading succeeds, whether a write goes through, and how it fails when
    it does not. *)
Record File := {
  content : string;
  readable : bool;
  writable : bool;
  failure : WriteFailure
}.

(** A file whose writes, when they fail, fail at the open. *)
Definition mkFile (c : string) (r w : bool) : File :=
  {| content := c; readable := r; writable := w; failure := OpenRefused |}.

(** The same file with other bytes. *)
Definition set_content (c : string) (f : File) : File :=
  {| content := c; readable := readable f; writable := writable f;
     failure := failure f |}.

Inductive Severity := WARNING | ERROR.

(** What the methods can touch: the files by absolute path, the log, and
    the missing paths at which an open with O_CREAT would make a file. *)
Record World := mkWorld {
  fs : gmap string File;
  logcat : list (Severity * string);
  creatable : gset string
}.

(** Calls are sequenced in the order the C++ statements run. *)
Definition IO (A : Type) : Type := World -> A * World.

#[export] Instance IO_ret : MRet IO := fun A a w => (a, w).

#[export] Instance IO_bind : MBind IO :=
  fun A B k m w => let (a, w') := m w in k a w'.

Definition result {A} (r : A * World) : A := fst r.
Definition after {A} (r : A * World) : World := snd r.

(** [stat(2)]: 0 when the path names a file, -1 otherwise. *)
Definition stat (path : string) : IO Z :=
  fun w => (match fs w !! path with Some _ => 0 | None => -1 end, w).

(** [android::base::ReadFileToString(path, &value)]: the flag it returns
    and the string left in [value], which it clears first. *)
Definition ReadFileToString (path : string) : IO (bool * string) :=
  fun w =>
    match fs w !! path with
    | Some f => if readable f then (true, content f, w) else (false, "", w)
    | None => (false, "", w)
    end.

(** The world with other files. *)
Definition with_fs (m : gmap string File) (w : World) : World :=
  mkWorld m (logcat w) (creatable w).

(** [android::base::WriteStringToFile(content, path, follow_symlinks)].
    It opens with O_WRONLY | O_CREAT | O_TRUNC and returns false when the
    open fails, nothing being changed; a missing file is created, with mode
    0666, where the directory allows it.  It then writes [data] in a loop of
    [write(2)], which for no bytes makes no call; when a call fails, with
    only a proper prefix of [data] in the truncated file, it unlinks the
    path and returns false.  [follow_symlinks] only decides whether the
    open of a symbolic link is refused, which is part of what [writable]
    and [failure] record; the model has no links from one path to
    another. *)
Definition WriteStringToFile (data path : string) (follow_symlinks : bool)
  : IO bool :=
  fun w =>
    match fs w !! path with
    | Some f =>
        if writable f
        then (true, with_fs (<[path := set_content data f]> (fs w)) w)
        else
          match failure f with
          | OpenRefused => (false, w)
          | WriteFails landed unlinked =>
              match data with
              | EmptyString =>
                  (true, with_fs (<[path := set_content "" f]> (fs w)) w)
              | String _ _ =>
                  if unlinked
                  then (false, with_fs (delete path (fs w)) w)
                  else
                    let left_behind :=
                      String.substring 0
                        (Nat.min landed (String.length data - 1)) data in
                    (false,
                     with_fs (<[path := set_content left_behind f]> (fs w)) w)
              end
          end
    | None =>
        if bool_decide (path ∈ creatable w)
        then (true, with_fs (<[path := mkFile data true true]> (fs w)) w)
        else (false, w)
    end.

(** [LOG(severity) << message]. *)
Definition LOG (s : Severity) (msg : string) : IO unit :=
  fun w => (tt, mkWorld (fs w) (logcat w ++ [(s, msg)]) (creatable w)).

End Platform.

Export Platform.

(** ** ndk::ScopedAStatus *)

Module ndk.

(** The binder status a method hands back to the transport. *)
Inductive ScopedAStatus :=
| ok
| fromExceptionCode (code : Z)
| fromServiceSpecificError (code : Z).


End ndk.

(** ** The service *)

Module PowerShare.

Import ndk.

Definition kWirelessTxEnablePath : string := "/proc/wireless/enable_tx".

(** The literal compared against in [isEnabled]: the seven letters and a
    line feed. *)
Definition disable_line : string :=
  String "d" (String "i" (String "s" (String "a" (String "b" (String "l"
    (String "e" (String "010" EmptyString))))))).

(** A method with an out-parameter returns its status together with the
    value stored through [_aidl_return]. *)
Definition getMinBattery : IO (ScopedAStatus * Z) :=
  mret (ok, 0).

Definition isEnabled : IO (ScopedAStatus * bool) :=
  rc ← stat kWirelessTxEnablePath;
  if negb (Z.eqb rc 0) then
    LOG WARNING "PowerShare node missing, assuming disabled";;
    mret (ok, false)
  else
    '(success, value) ← ReadFileToString kWirelessTxEnablePath;
    if negb success then
      LOG ERROR "Failed to read current PowerShare state";;
      mret (ok, false)
    else
      mret (ok, negb (String.eqb value disable_line)).

Definition setEnabled (enable : bool) : IO ScopedAStatus :=
  rc ← stat kWirelessTxEnablePath;
  if negb (Z.eqb rc 0) then
    LOG WARNING "Attempted to set PowerShare on a device without support";;
    mret ok
  else
    written ← WriteStringToFile (if enable then "1" else "0")
                                kWirelessTxEnablePath true;
    if negb written then
      LOG ERROR "Failed to write PowerShare state";;
      mret ok
    else
      mret ok.

(** The [int32_t] argument is taken as any integer; the body never looks
    at it. *)
Definition setMinBattery (minBattery : Z) : IO ScopedAStatus :=
  mret ok.

End PowerShare.

(** ** The remote interface

    A caller reaches the service only through these four transactions. *)

Module Interface.

Import ndk PowerShare.

Inductive Call :=
| GetMinBattery
| SetMinBattery (threshold : Z)
| IsEnabled
| SetEnabled (enable : bool).

Inductive Reply :=
| ReplyInt (status : ScopedAStatus) (value : Z)
| ReplyBool (status : ScopedAStatus) (value : bool)
| ReplyVoid (status : ScopedAStatus).


Definition dispatch (c : Call) : IO Reply :=
  match c with
  | GetMinBattery => '(s, v) ← getMinBattery; mret (ReplyInt s v)
  | SetMinBattery t => s ← setMinBattery t; mret (ReplyVoid s)
  | IsEnabled => '(s, b) ← isEnabled; mret (ReplyBool s b)
  | SetEnabled e => s ← setEnabled e; mret (ReplyVoid s)
  end.

(** A session: the calls are served one after the other. *)
Fixpoint serve (cs : list Call) : IO (list Reply) :=
  match cs with
  | [] => mret []
  | c :: cs' => r ← dispatch c; rs ← serve cs'; mret (r :: rs)
  end.

End Interface.

Import ndk PowerShare Interface.

(** The control node as a world shows it. *)
Definition node (w : World) : option File := fs w !! kWirelessTxEnablePath.

(** A world whose only file is the control node; nothing can be created. *)
Definition only_node (f : File) : World :=
  mkWorld {[ kWirelessTxEnablePath := f ]} [] ∅.

Definition bare : World := mkWorld ∅ [] ∅.

(** No control node, in a directory where one could be created. *)
Definition bare_creatable : World := mkWorld ∅ [] {[ kWirelessTxEnablePath ]}.

(** Two control nodes that refuse writes and differ in content only. *)
Definition locked_on : World := only_node (mkFile "1" true false).
Definition locked_off : World := only_node (mkFile "0" true false).

(** The argument of the last [setEnabled] of a session, if it has one. *)
Fixpoint last_enable (cs : list Call) : option bool :=
  match cs with
  | [] => None
  | c :: cs' =>
      match last_enable cs' with
      | Some x => Some x
      | None => match c with SetEnabled x => Some x | _ => None end
      end
  end.

(** A world with the control node and one more file beside it. *)
Definition with_neighbour (f g : File) : World :=
  mkWorld (<[ "/proc/wireless/enable_rx" := g ]>
             {[ kWirelessTxEnablePath := f ]}) [] ∅.

(** The world with the bytes of the control node blanked: all that is left
    of it is what [setEnabled] may depend on if it does not read them. *)
Definition forget_content (w : World) : World :=
  with_fs (alter (set_content "") kWirelessTxEnablePath (fs w)) w.

(** What a failing write of one of the two tokens leaves of the node. *)
Definition after_failed_write (f : File) : option File :=
  match failure f with
  | OpenRefused => Some f
  | WriteFails _ true => None
  | WriteFails _ false => Some (set_content "" f)
  end.

(** What [setEnabled x] leaves of a control node [f] that is there. *)
Definition setEnabled_leaves (x : bool) (f : File) : option File :=
  if writable f then Some (set_content (if x then "1" else "0") f)
  else after_failed_write f.

(** Whether the node outlives every write to it. *)
Definition outlives_writes (f : File) : bool :=
  writable f || bool_decide (is_Some (after_failed_write f)).

(** A control node whose writes fail after the open and end unlinked. *)
Definition brittle (c : string) : File :=
  {| content := c; readable := true; writable := false;
     failure := WriteFails 0 true |}.

(** ** The paths through [isEnabled] and [setEnabled] *)

Section Paths.

Variable w : World.

Ltac run_io H :=
  unfold isEnabled, setEnabled, node, mbind, mret, IO_bind, IO_ret,
    stat, ReadFileToString, WriteStringToFile, LOG, with_fs in *;
  repeat (rewrite H; cbn).

Lemma isEnabled_missing :
  node w = None ->
  isEnabled w =
    (ok, false,
     mkWorld (fs w)
       (logcat w ++ [(WARNING, "PowerShare node missing, assuming disabled")])
       (creatable w)).
Proof. intros Hn. run_io Hn. reflexivity. Qed.

Lemma isEnabled_read_fails f :
  node w = Some f -> readable f = false ->
  isEnabled w =
    (ok, false,
     mkWorld (fs w)
       (logcat w ++ [(ERROR, "Failed to read current PowerShare state")])
       (creatable w)).
Proof. intros Hn Hr. run_io Hn. rewrite Hr. reflexivity. Qed.

Lemma isEnabled_read f :
  node w = Some f -> readable f = true ->
  isEnabled w = (ok, negb (String.eqb (content f) disable_line), w).
Proof. intros Hn Hr. run_io Hn. rewrite Hr. reflexivity. Qed.

Lemma setEnabled_missing enable :
  node w = None ->
  setEnabled enable w =
    (ok,
     mkWorld (fs w)
       (logcat w ++
        [(WARNING, "Attempted to set PowerShare on a device without support")])
       (creatable w)).
Proof. intros Hn. run_io Hn. reflexivity. Qed.

(** The write fails: at the open, or after it, the one byte of the token
    not having landed. *)
Lemma setEnabled_write_fails enable f :
  node w = Some f -> writable f = false ->
  setEnabled enable w =
    (ok,
     mkWorld
       match after_failed_write f with
       | Some g => <[kWirelessTxEnablePath := g]> (fs w)
       | None => delete kWirelessTxEnablePath (fs w)
       end
       (logcat w ++ [(ERROR, "Failed to write PowerShare state")])
       (creatable w)).
Proof.
  intros Hn Hw. run_io Hn. rewrite Hw. unfold after_failed_write.
  destruct (failure f) as [|landed [|]]; cbn.
  - by rewrite insert_id.
  - by destruct enable.
  - destruct enable; cbn; by rewrite Nat.min_0_r.
Qed.

Lemma setEnabled_written enable f :
  node w = Some f -> writable f = true ->
  setEnabled enable w =
    (ok,
     mkWorld
       (<[kWirelessTxEnablePath :=
            set_content (if enable then "1" else "0") f]> (fs w))
       (logcat w) (creatable w)).
Proof. intros Hn Hw. run_io Hn. rewrite Hw. reflexivity. Qed.

End Paths.

Lemma disable_line_eqb (s : string) :
  String.eqb s disable_line = true <-> s = disable_line.
Proof. apply String.eqb_eq. Qed.

(** Every world is on exactly one path of [isEnabled]. *)
Lemma isEnabled_cases (w : World) :
  (node w = None /\ (result (isEnabled w)).2 = false) \/
  (exists f, node w = Some f /\ readable f = false /\
             (result (isEnabled w)).2 = false) \/
  (exists f, node w = Some f /\ readable f = true /\
             (result (isEnabled w)).2 = negb (String.eqb (content f) disable_line)).
Proof.
  destruct (node w) as [f|] eqn:Hn.
  - destruct (readable f) eqn:Hr.
    + right; right. exists f. by rewrite (isEnabled_read w f Hn Hr).
    + right; left. exists f. by rewrite (isEnabled_read_fails w f Hn Hr).
  - left. by rewrite (isEnabled_missing w Hn).
Qed.

(** ** isEnabled *)

(** C1: [isEnabled] answers false exactly when the control node is absent,
    or reading it fails, or its content is the bytes of "disable" followed
    by a line feed; on every other readable content it answers true. *)
Theorem isEnabled_false_iff (w : World) :
  (result (isEnabled w)).2 = false <->
    node w = None \/
    (exists f, node w = Some f /\ readable f = false) \/
    (exists f, node w = Some f /\ content f = disable_line).
Proof.
  split.
  - intros Hres.
    destruct (isEnabled_cases w) as [[Hn _]|[(f & Hn & Hr & _)|(f & Hn & Hr & E)]].
    + by left.
    + right; left. by exists f.
    + right; right. exists f. split; [done|].
      rewrite Hres in E. apply disable_line_eqb.
      by destruct (String.eqb (content f) disable_line).
  - intros [Hn|[(f & Hn & Hr)|(f & Hn & Hc)]].
    + by rewrite (isEnabled_missing w Hn).
    + by rewrite (isEnabled_read_fails w f Hn Hr).
    + destruct (readable f) eqn:Hr.
      * rewrite (isEnabled_read w f Hn Hr). cbn.
        apply disable_line_eqb in Hc. by rewrite Hc.
      * by rewrite (isEnabled_read_fails w f Hn Hr).
Qed.

(** Contents that are not the sentinel, the ones the specification names. *)
Example isEnabled_without_newline :
  (result (isEnabled (only_node (mkFile "disable" true true)))).2 = true.
Proof. reflexivity. Qed.

Example isEnabled_zero :
  (result (isEnabled (only_node (mkFile "0" true true)))).2 = true.
Proof. reflexivity. Qed.

Example isEnabled_empty :
  (result (isEnabled (only_node (mkFile "" true true)))).2 = true.
Proof. reflexivity. Qed.

Example isEnabled_malformed :
  (result (isEnabled (only_node (mkFile "dis able??" true true)))).2 = true.
Proof. reflexivity. Qed.

Example isEnabled_sentinel :
  (result (isEnabled (only_node (mkFile disable_line true true)))).2 = false.
Proof. reflexivity. Qed.

Example isEnabled_unreadable :
  (result (isEnabled (only_node (mkFile "1" false true)))).2 = false.
Proof. reflexivity. Qed.

Example isEnabled_bare : (result (isEnabled bare)).2 = false.
Proof. reflexivity. Qed.

(** C8: [isEnabled] leaves every file, the control node among them, as it
    found it. *)
Theorem isEnabled_read_only (w : World) :
  fs (after (isEnabled w)) = fs w /\ node (after (isEnabled w)) = node w.
Proof.
  assert (fs (after (isEnabled w)) = fs w) as E.
  { destruct (node w) as [f|] eqn:Hn.
    - destruct (readable f) eqn:Hr.
      + by rewrite (isEnabled_read w f Hn Hr).
      + by rewrite (isEnabled_read_fails w f Hn Hr).
    - by rewrite (isEnabled_missing w Hn). }
  split; [done|]. unfold node. by rewrite E.
Qed.

(** ** setEnabled *)

Lemma setEnabled_ok (enable : bool) (w : World) :
  result (setEnabled enable w) = ok.
Proof.
  destruct (node w) as [f|] eqn:Hn.
  - destruct (writable f) eqn:Hw.
    + by rewrite (setEnabled_written w enable f Hn Hw).
    + by rewrite (setEnabled_write_fails w enable f Hn Hw).
  - by rewrite (setEnabled_missing w enable Hn).
Qed.


(** The node a successful write leaves behind. *)
Lemma node_after_written (enable : bool) (w : World) (f : File) :
  node w = Some f -> writable f = true ->
  node (after (setEnabled enable w)) =
    Some (set_content (if enable then "1" else "0") f).
Proof.
  intros Hn Hw. rewrite (setEnabled_written w enable f Hn Hw).
  unfold node, after. cbn. by rewrite lookup_insert_eq.
Qed.

(** C3: on a control node that exists and can be written, [setEnabled true]
    leaves the content "1" and [setEnabled false] leaves "0", whatever was
    there, and the call reports success. *)
Theorem setEnabled_writes_token (enable : bool) (w : World) (f : File) :
  node w = Some f -> writable f = true ->
  result (setEnabled enable w) = ok /\
  content <$> node (after (setEnabled enable w)) =
    Some (if enable then "1" else "0").
Proof.
  intros Hn Hw. split; [apply setEnabled_ok|].
  by rewrite (node_after_written enable w f Hn Hw).
Qed.

Lemma setEnabled_writes_token_witness :
  let w := only_node (mkFile disable_line true true) in
  node w = Some (mkFile disable_line true true) /\
  (result (setEnabled true w) = ok /\
   content <$> node (after (setEnabled true w)) = Some "1") /\
  (result (setEnabled false w) = ok /\
   content <$> node (after (setEnabled false w)) = Some "0").
Proof.
  split; [reflexivity|]. split.
  - apply (setEnabled_writes_token true _ (mkFile disable_line true true));
      reflexivity.
  - apply (setEnabled_writes_token false _ (mkFile disable_line true true));
      reflexivity.
Defined.

(** C5: with the control node absent, [setEnabled x] reports success, writes
    nothing and creates nothing: the files are the same and the node is
    still absent. *)
Theorem setEnabled_missing_noop (x : bool) (w : World) :
  node w = None ->
  result (setEnabled x w) = ok /\
  fs (after (setEnabled x w)) = fs w /\
  node (after (setEnabled x w)) = None.
Proof.
  intros Hn. rewrite (setEnabled_missing w x Hn). by repeat split.
Qed.

Lemma setEnabled_missing_noop_witness :
  node bare = None /\
  result (setEnabled true bare) = ok /\
  fs (after (setEnabled true bare)) = fs bare /\
  node (after (setEnabled true bare)) = None.
Proof.
  split; [reflexivity|]. apply (setEnabled_missing_noop true bare). reflexivity.
Defined.

(** The guard is what keeps the file from appearing: where the directory
    allows it, the write alone, on a missing path, creates the file, and
    [setEnabled] still does not. *)
Example WriteStringToFile_creates :
  fs (after (WriteStringToFile "1" kWirelessTxEnablePath true bare_creatable))
    !! kWirelessTxEnablePath = Some (mkFile "1" true true) /\
  node (after (setEnabled true bare_creatable)) = None.
Proof. split; reflexivity. Qed.

Example WriteStringToFile_cannot_create :
  WriteStringToFile "1" kWirelessTxEnablePath true bare = (false, bare).
Proof. reflexivity. Qed.

(** A write refused at the open is silent: the status is still [ok] and the
    node keeps what it held. *)
Lemma setEnabled_refused (x : bool) (w : World) (f : File) :
  node w = Some f -> writable f = false -> failure f = OpenRefused ->
  result (setEnabled x w) = ok /\ node (after (setEnabled x w)) = Some f.
Proof.
  intros Hn Hw Hf. rewrite (setEnabled_write_fails w x f Hn Hw).
  unfold after_failed_write. rewrite Hf. split; [done|].
  unfold node, after. cbn. by rewrite lookup_insert_eq.
Qed.

(** C4: from a control node holding "1" that can be read and written,
    [isEnabled] answers true; [setEnabled false] then leaves exactly "0";
    and [isEnabled] asked again still answers true, "0" not being the
    sentinel line. *)
Theorem disable_does_not_round_trip (w : World) (f : File) :
  node w = Some f -> content f = "1" ->
  readable f = true -> writable f = true ->
  let w1 := after (isEnabled w) in
  let w2 := after (setEnabled false w1) in
  (result (isEnabled w)).2 = true /\
  result (setEnabled false w1) = ok /\
  content <$> node w2 = Some "0" /\
  (result (isEnabled w2)).2 = true.
Proof.
  intros Hn Hc Hr Hw w1 w2.
  assert (w1 = w) as E1 by (unfold w1; by rewrite (isEnabled_read w f Hn Hr)).
  assert (node w2 = Some (set_content "0" f)) as Hn2.
  { unfold w2. rewrite E1. apply (node_after_written false w f Hn Hw). }
  repeat split.
  - rewrite (isEnabled_read w f Hn Hr), Hc. reflexivity.
  - rewrite E1. apply setEnabled_ok.
  - by rewrite Hn2.
  - rewrite (isEnabled_read w2 _ Hn2 Hr). reflexivity.
Qed.

Lemma disable_does_not_round_trip_witness :
  let w := only_node (mkFile "1" true true) in
  let w1 := after (isEnabled w) in
  let w2 := after (setEnabled false w1) in
  node w = Some (mkFile "1" true true) /\
  (result (isEnabled w)).2 = true /\
  result (setEnabled false w1) = ok /\
  content <$> node w2 = Some "0" /\
  (result (isEnabled w2)).2 = true.
Proof.
  split; [reflexivity|].
  apply (disable_does_not_round_trip _ (mkFile "1" true true)); reflexivity.
Defined.

(** ** The battery threshold stubs *)

Lemma serve_cons (c : Call) (cs : list Call) (w : World) :
  serve (c :: cs) w =
    (result (dispatch c w) :: result (serve cs (after (dispatch c w))),
     after (serve cs (after (dispatch c w)))).
Proof.
  cbn. unfold mbind, IO_bind, mret, IO_ret, result, after.
  destruct (dispatch c w) as [r w']. cbn. by destruct (serve cs w').
Qed.

(** C6: [getMinBattery] answers 0 with status [ok] in every world, and so
    after any earlier calls, [setMinBattery] with any threshold included. *)
Theorem getMinBattery_zero :
  (forall w : World, getMinBattery w = (ok, 0, w)) /\
  (forall (v : Z) (w : World),
     result (getMinBattery (after (setMinBattery v w))) = (ok, 0)) /\
  (forall (before : list Call) (w : World),
     result (getMinBattery (after (serve before w))) = (ok, 0)).
Proof. by repeat split. Qed.

(** C7: [setMinBattery] reports success for every threshold and leaves the
    world as it was, so whatever is called next, once or in a row, answers
    and acts as it would have without it. *)
Theorem setMinBattery_inert (threshold : Z) (w : World) :
  setMinBattery threshold w = (ok, w) /\
  getMinBattery (after (setMinBattery threshold w)) = getMinBattery w /\
  isEnabled (after (setMinBattery threshold w)) = isEnabled w /\
  (forall x, setEnabled x (after (setMinBattery threshold w)) = setEnabled x w) /\
  (forall cs, serve (SetMinBattery threshold :: cs) w =
                (ReplyVoid ok :: result (serve cs w), after (serve cs w))).
Proof.
  repeat split. intros cs. by rewrite serve_cons.
Qed.

(** ** Transport status *)



(** ** What setEnabled does with the previous content *)

(** C10, as stated, fails: both worlds have the control node, yet after
    [setEnabled true] the one still holds "1" and the other still "0",
    the write having been refused in both. *)
Lemma setEnabled_refused_keeps_difference :
  is_Some (node locked_on) /\ is_Some (node locked_off) /\
  result (setEnabled true locked_on) = result (setEnabled true locked_off) /\
  content <$> node (after (setEnabled true locked_on)) = Some "1" /\
  content <$> node (after (setEnabled true locked_off)) = Some "0" /\
  content <$> node (after (setEnabled true locked_on)) <>
    content <$> node (after (setEnabled true locked_off)).
Proof.
  repeat split; try (eexists; reflexivity). discriminate.
Qed.

(** On an existing node the files end up as the one write of the token
    leaves them, whether it goes through or fails. *)
Lemma setEnabled_is_the_write (x : bool) (w : World) (f : File) :
  node w = Some f ->
  fs (after (setEnabled x w)) =
    fs (after (WriteStringToFile (if x then "1" else "0")
                                 kWirelessTxEnablePath true w)).
Proof.
  intros Hn. unfold setEnabled, mbind, IO_bind, stat.
  unfold node in Hn. rewrite Hn. cbn.
  destruct (WriteStringToFile _ _ _ w) as [[|] w']; reflexivity.
Qed.

(** Two worlds have the same [forget_content] exactly when they agree on
    the log, on what can be created, on every other file, and on the
    control node up to its bytes. *)
Lemma forget_content_eq (w1 w2 : World) :
  forget_content w1 = forget_content w2 <->
  logcat w1 = logcat w2 /\ creatable w1 = creatable w2 /\
  (forall p, p <> kWirelessTxEnablePath -> fs w1 !! p = fs w2 !! p) /\
  set_content "" <$> node w1 = set_content "" <$> node w2.
Proof.
  unfold forget_content, with_fs, node. split.
  - intros E. injection E as Ef El Ec. repeat split; try done.
    + intros p Hp.
      rewrite <- (lookup_alter_ne (set_content "") (fs w1) kWirelessTxEnablePath p),
              <- (lookup_alter_ne (set_content "") (fs w2) kWirelessTxEnablePath p);
        try done.
      by rewrite Ef.
    + rewrite <- !lookup_alter_eq. by rewrite Ef.
  - intros (El & Ec & Ho & En). f_equal; try done.
    apply map_eq. intros p.
    destruct (decide (p = kWirelessTxEnablePath)) as [->|Hp].
    + by rewrite !lookup_alter_eq.
    + rewrite !lookup_alter_ne; auto.
Qed.

Lemma set_content_twice (c d : string) (f : File) :
  set_content c (set_content d f) = set_content c f.
Proof. reflexivity. Qed.

(** Files alike up to their bytes are the same file once given bytes. *)
Lemma set_content_alike (c : string) (f1 f2 : File) :
  set_content "" f1 = set_content "" f2 -> set_content c f1 = set_content c f2.
Proof.
  intros E. rewrite <- (set_content_twice c "" f1), <- (set_content_twice c "" f2).
  by rewrite E.
Qed.

Lemma alike_fields (f1 f2 : File) :
  set_content "" f1 = set_content "" f2 ->
  readable f1 = readable f2 /\ writable f1 = writable f2 /\
  failure f1 = failure f2.
Proof. intros E. by injection E. Qed.

Lemma insert_agree (m1 m2 : gmap string File) (k : string) (v : File) :
  (forall p, p <> k -> m1 !! p = m2 !! p) -> <[k := v]> m1 = <[k := v]> m2.
Proof.
  intros H. apply map_eq. intros p. destruct (decide (p = k)) as [->|Hp].
  - by rewrite !lookup_insert_eq.
  - rewrite !lookup_insert_ne; auto.
Qed.

Lemma delete_agree (m1 m2 : gmap string File) (k : string) :
  (forall p, p <> k -> m1 !! p = m2 !! p) -> delete k m1 = delete k m2.
Proof.
  intros H. apply map_eq. intros p. destruct (decide (p = k)) as [->|Hp].
  - by rewrite !lookup_delete_eq.
  - rewrite !lookup_delete_ne; auto.
Qed.

(** From two worlds alike but for the bytes of the control node,
    [setEnabled] goes to two worlds alike in the same way, and to one and
    the same world unless the write is refused at the open. *)
Lemma setEnabled_alike (x : bool) (w1 w2 : World) (f1 f2 : File) :
  node w1 = Some f1 -> node w2 = Some f2 ->
  forget_content w1 = forget_content w2 ->
  forget_content (after (setEnabled x w1)) =
    forget_content (after (setEnabled x w2)) /\
  (writable f1 = true \/ failure f1 <> OpenRefused ->
   after (setEnabled x w1) = after (setEnabled x w2)).
Proof.
  intros Hn1 Hn2 E. apply forget_content_eq in E as (El & Ec & Ho & En).
  rewrite Hn1, Hn2 in En. cbn [fmap option_fmap option_map] in En.
  apply (inj Some) in En.
  destruct (alike_fields f1 f2 En) as (_ & Hw & Hf).
  destruct (writable f1) eqn:Hw1; symmetry in Hw.
  - rewrite (setEnabled_written w1 x f1 Hn1 Hw1),
            (setEnabled_written w2 x f2 Hn2 Hw).
    assert (after (ok, mkWorld (<[kWirelessTxEnablePath :=
                set_content (if x then "1" else "0") f1]> (fs w1))
              (logcat w1) (creatable w1)) =
            after (ok, mkWorld (<[kWirelessTxEnablePath :=
                set_content (if x then "1" else "0") f2]> (fs w2))
              (logcat w2) (creatable w2))) as Ea.
    { unfold after. cbn. rewrite El, Ec, (set_content_alike _ f1 f2 En).
      f_equal. by apply insert_agree. }
    split; [by rewrite Ea|done].
  - rewrite (setEnabled_write_fails w1 x f1 Hn1 Hw1),
            (setEnabled_write_fails w2 x f2 Hn2 Hw).
    unfold after_failed_write. rewrite <- Hf.
    destruct (failure f1) as [|landed [|]] eqn:Hf1; unfold after; cbn.
    + split; [|intros [?|?]; congruence].
      apply forget_content_eq. cbn. rewrite El, Ec. repeat split; try done.
      * intros p Hp. rewrite !lookup_insert_ne; auto.
      * unfold node. cbn. rewrite !lookup_insert_eq. cbn. by rewrite En.
    + assert (delete kWirelessTxEnablePath (fs w1) =
              delete kWirelessTxEnablePath (fs w2)) as ->
        by by apply delete_agree.
      by rewrite El, Ec.
    + rewrite El, Ec, (set_content_alike "" f1 f2 En).
      rewrite (insert_agree (fs w1) (fs w2)); done.
Qed.

(** C10, amended: in any two worlds where the control node exists,
    [setEnabled x] makes the same write of the token for x and returns the
    same status, and where the node can be written in both it leaves the
    same content in both.  It does not read what the node held: from two
    worlds that differ at most in those bytes it adds the same lines to the
    log and ends in worlds that again differ at most in the bytes of the
    node, and in one and the same world when the write goes through. *)
Theorem setEnabled_ignores_content (x : bool) (w1 w2 : World) (f1 f2 : File) :
  node w1 = Some f1 -> node w2 = Some f2 ->
  let write := WriteStringToFile (if x then "1" else "0")
                                 kWirelessTxEnablePath true in
  fs (after (setEnabled x w1)) = fs (after (write w1)) /\
  fs (after (setEnabled x w2)) = fs (after (write w2)) /\
  result (setEnabled x w1) = result (setEnabled x w2) /\
  (writable f1 = true -> writable f2 = true ->
   content <$> node (after (setEnabled x w1)) =
     content <$> node (after (setEnabled x w2))) /\
  (forget_content w1 = forget_content w2 ->
   logcat (after (setEnabled x w1)) = logcat (after (setEnabled x w2)) /\
   forget_content (after (setEnabled x w1)) =
     forget_content (after (setEnabled x w2)) /\
   (writable f1 = true ->
    after (setEnabled x w1) = after (setEnabled x w2))).
Proof.
  intros Hn1 Hn2 write.
  split; [apply (setEnabled_is_the_write x w1 f1 Hn1)|].
  split; [apply (setEnabled_is_the_write x w2 f2 Hn2)|].
  split; [by rewrite !setEnabled_ok|].
  split.
  - intros Hw1 Hw2.
    by rewrite (node_after_written x w1 f1 Hn1 Hw1),
               (node_after_written x w2 f2 Hn2 Hw2).
  - intros E. destruct (setEnabled_alike x w1 w2 f1 f2 Hn1 Hn2 E) as [Ef Ea].
    split; [|split; [exact Ef|intros Hw; apply Ea; by left]].
    apply forget_content_eq in Ef. by destruct Ef as [El _].
Qed.

Lemma setEnabled_ignores_content_witness :
  let w1 := only_node (mkFile "1" true true) in
  let w2 := only_node (mkFile disable_line true true) in
  node w1 = Some (mkFile "1" true true) /\
  node w2 = Some (mkFile disable_line true true) /\
  forget_content w1 = forget_content w2 /\
  result (setEnabled false w1) = result (setEnabled false w2) /\
  content <$> node (after (setEnabled false w1)) =
    content <$> node (after (setEnabled false w2)) /\
  logcat (after (setEnabled false w1)) = logcat (after (setEnabled false w2)) /\
  after (setEnabled false w1) = after (setEnabled false w2).
Proof.
  split; [reflexivity|]. split; [reflexivity|]. split; [reflexivity|].
  destruct (setEnabled_ignores_content false
              (only_node (mkFile "1" true true))
              (only_node (mkFile disable_line true true))
              (mkFile "1" true true) (mkFile disable_line true true)
              eq_refl eq_refl) as (_ & _ & Hs & Hc & Hf).
  destruct (Hf eq_refl) as (Hl & _ & Ha).
  split; [exact Hs|]. split; [apply Hc; reflexivity|].
  split; [exact Hl|]. apply Ha. reflexivity.
Defined.

(** ** One call, step by step *)

Lemma isEnabled_keeps_fs (w : World) : fs (after (isEnabled w)) = fs w.
Proof.
  destruct (node w) as [f|] eqn:Hn.
  - destruct (readable f) eqn:Hr.
    + by rewrite (isEnabled_read w f Hn Hr).
    + by rewrite (isEnabled_read_fails w f Hn Hr).
  - by rewrite (isEnabled_missing w Hn).
Qed.

Lemma setEnabled_fs (x : bool) (w : World) :
  fs (after (setEnabled x w)) =
    match node w with
    | Some f =>
        match setEnabled_leaves x f with
        | Some g => <[kWirelessTxEnablePath := g]> (fs w)
        | None => delete kWirelessTxEnablePath (fs w)
        end
    | None => fs w
    end.
Proof.
  unfold setEnabled_leaves. destruct (node w) as [f|] eqn:Hn.
  - destruct (writable f) eqn:Hw.
    + by rewrite (setEnabled_written w x f Hn Hw).
    + by rewrite (setEnabled_write_fails w x f Hn Hw).
  - by rewrite (setEnabled_missing w x Hn).
Qed.

Lemma setEnabled_node (x : bool) (w : World) :
  node (after (setEnabled x w)) = node w ≫= setEnabled_leaves x.
Proof.
  unfold node at 1. rewrite setEnabled_fs.
  destruct (node w) as [f|] eqn:Hn; [|done]. cbn.
  destruct (setEnabled_leaves x f).
  - by rewrite lookup_insert_eq.
  - by rewrite lookup_delete_eq.
Qed.

Lemma setEnabled_other (x : bool) (w : World) (p : string) :
  p <> kWirelessTxEnablePath ->
  fs (after (setEnabled x w)) !! p = fs w !! p.
Proof.
  intros Hp. rewrite setEnabled_fs.
  destruct (node w) as [f|]; [|done].
  destruct (setEnabled_leaves x f).
  - by rewrite lookup_insert_ne.
  - by rewrite lookup_delete_ne.
Qed.

(** What [setEnabled] leaves has the permissions and the way of failing of
    what it found. *)
Lemma setEnabled_leaves_alike (x : bool) (f g : File) :
  setEnabled_leaves x f = Some g ->
  readable g = readable f /\ writable g = writable f /\
  failure g = failure f.
Proof.
  unfold setEnabled_leaves, after_failed_write.
  destruct (writable f) eqn:Hw; [by intros [= <-]|].
  destruct (failure f) as [|landed [|]] eqn:Hf; [|done|]; by intros [= <-].
Qed.

Lemma setEnabled_leaves_again (x y : bool) (f g : File) :
  setEnabled_leaves x f = Some g ->
  setEnabled_leaves y g = setEnabled_leaves y f.
Proof.
  unfold setEnabled_leaves, after_failed_write.
  destruct (writable f) eqn:Hw.
  - intros [= <-]. cbn. by rewrite Hw.
  - destruct (failure f) as [|landed [|]] eqn:Hf; [|done|];
      intros [= <-]; cbn; by rewrite Hw, Hf.
Qed.

Lemma setEnabled_leaves_none (x y : bool) (f : File) :
  setEnabled_leaves x f = None -> setEnabled_leaves y f = None.
Proof.
  unfold setEnabled_leaves. by destruct (writable f).
Qed.

Lemma after_dispatch (c : Call) (w : World) :
  after (dispatch c w) =
    match c with
    | GetMinBattery | SetMinBattery _ => w
    | IsEnabled => after (isEnabled w)
    | SetEnabled x => after (setEnabled x w)
    end.
Proof.
  destruct c as [|t| |x]; cbn; unfold mbind, IO_bind, mret, IO_ret, after; cbn.
  - reflexivity.
  - reflexivity.
  - by destruct (isEnabled w) as [[s b] w'].
  - by destruct (setEnabled x w) as [s w'].
Qed.

Lemma after_serve_cons (c : Call) (cs : list Call) (w : World) :
  after (serve (c :: cs) w) = after (serve cs (after (dispatch c w))).
Proof. by rewrite serve_cons. Qed.

(** What one call does to the control node. *)
Lemma dispatch_node (c : Call) (w : World) :
  node (after (dispatch c w)) =
    match c with
    | SetEnabled x => node w ≫= setEnabled_leaves x
    | _ => node w
    end.
Proof.
  rewrite after_dispatch. destruct c as [|t| |x]; try done.
  - unfold node. by rewrite isEnabled_keeps_fs.
  - apply setEnabled_node.
Qed.

Lemma dispatch_other (c : Call) (w : World) (p : string) :
  p <> kWirelessTxEnablePath ->
  fs (after (dispatch c w)) !! p = fs w !! p.
Proof.
  intros Hp. rewrite after_dispatch. destruct c as [|t| |x]; try done.
  - by rewrite isEnabled_keeps_fs.
  - by apply setEnabled_other.
Qed.

Lemma serve_other (cs : list Call) (w : World) (p : string) :
  p <> kWirelessTxEnablePath ->
  fs (after (serve cs w)) !! p = fs w !! p.
Proof.
  intros Hp. revert w. induction cs as [|c cs IH]; intros w; [done|].
  by rewrite after_serve_cons, IH, dispatch_other.
Qed.

(** A control node found after a session was there before it, with the
    same permissions and the same way of failing. *)
Lemma serve_node_origin (cs : list Call) (w : World) (g : File) :
  node (after (serve cs w)) = Some g ->
  exists f, node w = Some f /\ readable g = readable f /\
            writable g = writable f /\ failure g = failure f.
Proof.
  revert w. induction cs as [|c cs IH]; intros w Hg.
  - by exists g.
  - rewrite after_serve_cons in Hg.
    destruct (IH _ Hg) as (h & Hh & Hr & Hw & Hf).
    rewrite dispatch_node in Hh. destruct c as [|t| |x]; try by exists h.
    destruct (node w) as [f|]; [|done]. cbn in Hh.
    destruct (setEnabled_leaves_alike x f h Hh) as (Hr' & Hw' & Hf').
    exists f. repeat split; congruence.
Qed.

(** ** Files the service does not own *)

(** X1: a file at any other path is the same after [setEnabled], and after
    any sequence of calls. *)
Theorem other_files_untouched (p : string) :
  p <> kWirelessTxEnablePath ->
  (forall x w, fs (after (setEnabled x w)) !! p = fs w !! p) /\
  (forall cs w, fs (after (serve cs w)) !! p = fs w !! p).
Proof.
  intros Hp. split.
  - intros x w. by apply setEnabled_other.
  - intros cs w. by apply serve_other.
Qed.

Lemma other_files_untouched_witness :
  let g := mkFile "enable" true true in
  let w := with_neighbour (mkFile disable_line true true) g in
  fs w !! "/proc/wireless/enable_rx" = Some g /\
  fs (after (setEnabled true w)) !! "/proc/wireless/enable_rx" = Some g /\
  fs (after (serve [SetEnabled false; IsEnabled; SetEnabled true] w))
    !! "/proc/wireless/enable_rx" = Some g.
Proof.
  assert ("/proc/wireless/enable_rx" <> kWirelessTxEnablePath) as Hp
    by discriminate.
  destruct (other_files_untouched "/proc/wireless/enable_rx" Hp) as [H1 H2].
  split; [reflexivity|]. split.
  - rewrite H1. reflexivity.
  - rewrite H2. reflexivity.
Defined.

(** X2: no sequence of calls creates a file, not even where the control
    node could be created, and none removes a file other than the control
    node: the paths afterwards are among those before, and all of those
    before but perhaps the control node are still there. *)
Theorem serve_creates_nothing (cs : list Call) (w : World) :
  dom (fs (after (serve cs w))) ⊆ dom (fs w) /\
  dom (fs w) ∖ {[ kWirelessTxEnablePath ]} ⊆ dom (fs (after (serve cs w))).
Proof.
  split; intros p Hp.
  - apply elem_of_dom. apply elem_of_dom in Hp.
    destruct (decide (p = kWirelessTxEnablePath)) as [->|Hne].
    + destruct Hp as [g Hg].
      destruct (serve_node_origin cs w g Hg) as (f & Hf & _). by exists f.
    + by rewrite serve_other in Hp.
  - apply elem_of_difference in Hp as [Hp Hne].
    apply elem_of_dom. apply elem_of_dom in Hp.
    rewrite serve_other; [done|]. set_solver.
Qed.

(** X3: a control node that is there after a sequence of calls was there
    before it, and can be read and written exactly as before. *)
Theorem serve_keeps_permissions (cs : list Call) (w : World) (g : File) :
  node (after (serve cs w)) = Some g ->
  exists f, node w = Some f /\
            readable g = readable f /\ writable g = writable f.
Proof.
  intros Hg. destruct (serve_node_origin cs w g Hg) as (f & Hf & Hr & Hw & _).
  by exists f.
Qed.

Lemma serve_keeps_permissions_witness :
  let w := only_node (mkFile disable_line false true) in
  node (after (serve [SetEnabled true; IsEnabled] w)) =
    Some (mkFile "1" false true) /\
  exists f, node w = Some f /\
            readable (mkFile "1" false true) = readable f /\
            writable (mkFile "1" false true) = writable f.
Proof.
  split; [reflexivity|].
  apply (serve_keeps_permissions [SetEnabled true; IsEnabled]
           (only_node (mkFile disable_line false true))
           (mkFile "1" false true)).
  reflexivity.
Defined.

(** ** Writes compose *)

(** X4: of two [setEnabled] calls in a row only the second shows in the
    files; in particular repeating a call changes nothing more. *)
Theorem setEnabled_last_wins (x y : bool) (w : World) :
  fs (after (setEnabled y (after (setEnabled x w)))) =
    fs (after (setEnabled y w)).
Proof.
  rewrite (setEnabled_fs y (after (setEnabled x w))).
  rewrite setEnabled_node, (setEnabled_fs x w), (setEnabled_fs y w).
  destruct (node w) as [f|] eqn:Hn; cbn; [|done].
  destruct (setEnabled_leaves x f) as [g|] eqn:Hx.
  - rewrite (setEnabled_leaves_again x y f g Hx).
    destruct (setEnabled_leaves y f).
    + by rewrite insert_insert_eq.
    + by rewrite delete_insert_eq.
  - by rewrite (setEnabled_leaves_none x y f Hx).
Qed.

(** X5: on a writable control node, a sequence of calls leaves the token of
    its last [setEnabled], or the old content when it has none; the
    permissions stay. *)
Theorem serve_last_setEnabled_wins (cs : list Call) (w : World) (f : File) :
  node w = Some f -> writable f = true ->
  node (after (serve cs w)) =
    Some (set_content match last_enable cs with
                      | Some x => if x then "1" else "0"
                      | None => content f
                      end f).
Proof.
  revert w f. induction cs as [|c cs IH]; intros w f Hn Hw.
  - change (node w = Some (set_content (content f) f)).
    rewrite Hn. by destruct f.
  - rewrite after_serve_cons. cbn [last_enable].
    pose proof (dispatch_node c w) as E. rewrite Hn in E.
    destruct c as [|t| |x];
      try (rewrite (IH _ f E Hw); by destruct (last_enable cs)).
    cbn [mbind option_bind] in E. unfold setEnabled_leaves in E.
    rewrite Hw in E.
    rewrite (IH _ _ E Hw). cbn. by destruct (last_enable cs).
Qed.

Lemma serve_last_setEnabled_wins_witness :
  let f := mkFile disable_line true true in
  node (only_node f) = Some f /\
  node (after (serve [SetEnabled true; IsEnabled; SetEnabled false;
                      SetMinBattery 15; GetMinBattery] (only_node f)))
    = Some (mkFile "0" true true) /\
  node (after (serve [IsEnabled; GetMinBattery] (only_node f))) = Some f.
Proof.
  split; [reflexivity|]. split.
  - apply (serve_last_setEnabled_wins
             [SetEnabled true; IsEnabled; SetEnabled false;
              SetMinBattery 15; GetMinBattery]
             (only_node (mkFile disable_line true true))
             (mkFile disable_line true true)); reflexivity.
  - apply (serve_last_setEnabled_wins [IsEnabled; GetMinBattery]
             (only_node (mkFile disable_line true true))
             (mkFile disable_line true true)); reflexivity.
Defined.

(** X6: when the control node is absent, or is there but refuses to be
    opened for writing, no sequence of calls changes any file. *)
Theorem serve_frozen (cs : list Call) (w : World) :
  node w = None \/
  (exists f, node w = Some f /\ writable f = false /\ failure f = OpenRefused) ->
  fs (after (serve cs w)) = fs w.
Proof.
  revert w. induction cs as [|c cs IH]; intros w H; [done|].
  rewrite after_serve_cons.
  assert (fs (after (dispatch c w)) = fs w) as E.
  { rewrite after_dispatch. destruct c as [|t| |x]; try done.
    - apply isEnabled_keeps_fs.
    - rewrite setEnabled_fs.
      destruct H as [Hn|(f & Hn & Hw & Hf)]; rewrite Hn; [done|].
      unfold setEnabled_leaves, after_failed_write. rewrite Hw, Hf.
      by apply insert_id. }
  rewrite IH; [done|]. unfold node in *. by rewrite E.
Qed.

Lemma serve_frozen_witness :
  (node bare = None /\
   fs (after (serve [SetEnabled true; IsEnabled] bare)) = fs bare) /\
  (node locked_off = Some (mkFile "0" true false) /\
   fs (after (serve [SetEnabled true; IsEnabled] locked_off)) = fs locked_off).
Proof.
  split; (split; [reflexivity|]).
  - apply (serve_frozen [SetEnabled true; IsEnabled] bare). by left.
  - apply (serve_frozen [SetEnabled true; IsEnabled] locked_off).
    right. by exists (mkFile "0" true false).
Defined.

(** ** What the reader says after the writer *)

Lemma isEnabled_true_iff (w : World) :
  (result (isEnabled w)).2 = true <->
  exists f, node w = Some f /\ readable f = true /\ content f <> disable_line.
Proof.
  split.
  - intros Ht.
    destruct (isEnabled_cases w) as [[_ E]|[(f & _ & _ & E)|(f & Hn & Hr & E)]];
      try congruence.
    exists f. repeat split; try done.
    intros Hc. apply disable_line_eqb in Hc. rewrite Hc in E. cbn in E. congruence.
  - intros (f & Hn & Hr & Hc). rewrite (isEnabled_read w f Hn Hr). cbn.
    destruct (String.eqb (content f) disable_line) eqn:E; [|done].
    by apply disable_line_eqb in E.
Qed.

Lemma token_not_disable_line (x : bool) :
  (if x then "1" else "0") <> disable_line.
Proof. by destruct x. Qed.

(** X7: once a write of [setEnabled] has gone through on a readable node,
    [isEnabled] answers true, for [setEnabled false] as for
    [setEnabled true] and whatever the node held, the sentinel line too. *)
Theorem isEnabled_after_setEnabled (x : bool) (w : World) (f : File) :
  node w = Some f -> readable f = true -> writable f = true ->
  (result (isEnabled (after (setEnabled x w)))).2 = true.
Proof.
  intros Hn Hr Hw. apply isEnabled_true_iff.
  exists (set_content (if x then "1" else "0") f).
  split; [apply (node_after_written x w f Hn Hw)|].
  split; [done|]. apply token_not_disable_line.
Qed.

Lemma isEnabled_after_setEnabled_witness :
  let f := mkFile disable_line true true in
  node (only_node f) = Some f /\
  (result (isEnabled (only_node f))).2 = false /\
  (result (isEnabled (after (setEnabled false (only_node f))))).2 = true.
Proof.
  split; [reflexivity|]. split; [reflexivity|].
  apply (isEnabled_after_setEnabled false
           (only_node (mkFile disable_line true true))
           (mkFile disable_line true true)); reflexivity.
Defined.

(** A node that reads as enabled and outlives writes is still both after
    [setEnabled]. *)
Lemma setEnabled_leaves_enabled (x : bool) (f : File) :
  readable f = true -> content f <> disable_line -> outlives_writes f = true ->
  exists g, setEnabled_leaves x f = Some g /\ readable g = true /\
            content g <> disable_line /\ outlives_writes g = true.
Proof.
  unfold outlives_writes, setEnabled_leaves, after_failed_write.
  intros Hr Hc Ho. destruct (writable f) eqn:Hw.
  - eexists. split; [done|]. cbn. rewrite Hw.
    repeat split; try done. apply token_not_disable_line.
  - destruct (failure f) as [|landed [|]] eqn:Hf; [|done|].
    + exists f. by rewrite Hw, Hf.
    + eexists. split; [done|]. cbn. by rewrite Hw, Hf.
Qed.

(** X8: once [isEnabled] answers true it answers true after every sequence
    of calls, on a control node that outlives the writes to it (they go
    through, or fail without the path being unlinked): what the service
    writes never reads as disabled. *)
Theorem isEnabled_stays_true (cs : list Call) (w : World) (f : File) :
  node w = Some f -> outlives_writes f = true ->
  (result (isEnabled w)).2 = true ->
  (result (isEnabled (after (serve cs w)))).2 = true.
Proof.
  intros Hn Ho Ht. apply isEnabled_true_iff in Ht as (f' & Hn' & Hr & Hc).
  rewrite Hn in Hn'. injection Hn' as <-.
  revert w f Hn Ho Hr Hc. induction cs as [|c cs IH]; intros w f Hn Ho Hr Hc.
  - apply isEnabled_true_iff. by exists f.
  - rewrite after_serve_cons.
    pose proof (dispatch_node c w) as E. rewrite Hn in E.
    destruct c as [|t| |x]; try by apply (IH _ f E).
    destruct (setEnabled_leaves_enabled x f Hr Hc Ho) as (g & Hg & Hr' & Hc' & Ho').
    cbn [mbind option_bind] in E. rewrite Hg in E.
    by apply (IH _ g E).
Qed.

Lemma isEnabled_stays_true_witness :
  let w := only_node (mkFile "1" true true) in
  node w = Some (mkFile "1" true true) /\
  (result (isEnabled w)).2 = true /\
  (result (isEnabled (after (serve [SetEnabled false; SetMinBattery 30;
                                    SetEnabled false] w)))).2 = true.
Proof.
  split; [reflexivity|]. split; [reflexivity|].
  apply (isEnabled_stays_true [SetEnabled false; SetMinBattery 30;
                               SetEnabled false]
           (only_node (mkFile "1" true true)) (mkFile "1" true true));
    reflexivity.
Defined.

(** X9: while the control node is absent or cannot be read, [isEnabled]
    answers false after every sequence of calls: the service cannot mend
    either. *)
Theorem isEnabled_stays_false (cs : list Call) (w : World) :
  node w = None \/ (exists f, node w = Some f /\ readable f = false) ->
  (result (isEnabled (after (serve cs w)))).2 = false.
Proof.
  intros H.
  destruct (node (after (serve cs w))) as [g|] eqn:Hg.
  - destruct (serve_node_origin cs w g Hg) as (f & Hf & Hr & _).
    destruct H as [Hn|(f' & Hn & Hf')]; rewrite Hn in Hf; [done|].
    injection Hf as ->.
    rewrite (isEnabled_read_fails _ g Hg); [done|congruence].
  - by rewrite (isEnabled_missing _ Hg).
Qed.

Lemma isEnabled_stays_false_witness :
  (node bare = None /\
   (result (isEnabled (after (serve [SetEnabled true] bare)))).2 = false) /\
  (let f := mkFile "1" false true in
   node (only_node f) = Some f /\
   (result (isEnabled (after (serve [SetEnabled true] (only_node f))))).2
     = false).
Proof.
  split; (split; [reflexivity|]).
  - apply (isEnabled_stays_false [SetEnabled true] bare). by left.
  - apply (isEnabled_stays_false [SetEnabled true]
             (only_node (mkFile "1" false true))).
    right. by exists (mkFile "1" false true).
Defined.

(** X14: [setEnabled] takes a true answer of [isEnabled] to false in one
    case only: the write fails after the open and the path is unlinked, so
    that the control node is gone. *)
Theorem setEnabled_disables_iff (x : bool) (w : World) :
  (result (isEnabled w)).2 = true ->
  ((result (isEnabled (after (setEnabled x w)))).2 = false <->
   exists f, node w = Some f /\ outlives_writes f = false).
Proof.
  intros Ht. apply isEnabled_true_iff in Ht as (f & Hn & Hr & Hc). split.
  - intros Hf. exists f. split; [done|].
    destruct (outlives_writes f) eqn:Ho; [|done].
    destruct (setEnabled_leaves_enabled x f Hr Hc Ho) as (g & Hg & Hr' & Hc' & _).
    assert ((result (isEnabled (after (setEnabled x w)))).2 = true) as Ht.
    { apply isEnabled_true_iff. exists g. split; [|done].
      by rewrite setEnabled_node, Hn. }
    congruence.
  - intros (f' & Hn' & Ho). rewrite Hn in Hn'. injection Hn' as <-.
    rewrite isEnabled_missing; [done|].
    rewrite setEnabled_node, Hn. cbn.
    unfold outlives_writes, setEnabled_leaves in *.
    destruct (writable f); [done|]. cbn in Ho.
    destruct (after_failed_write f); [|done]. by cbn in Ho.
Qed.

Lemma setEnabled_disables_iff_witness :
  let w := only_node (brittle "1") in
  (result (isEnabled w)).2 = true /\
  (result (isEnabled (after (setEnabled false w)))).2 = false /\
  result (setEnabled false w) = ok /\
  node (after (setEnabled false w)) = None.
Proof.
  split; [reflexivity|]. split; [|split; reflexivity].
  apply (setEnabled_disables_iff false (only_node (brittle "1")) eq_refl).
  exists (brittle "1"). split; reflexivity.
Defined.

(** ** The log *)

(** X10: [isEnabled] writes no log line exactly when it has read the node;
    it writes one warning exactly when the node is absent and one error
    exactly when the node is there and the read fails. *)
Theorem isEnabled_log (w : World) :
  exists extra,
    logcat (after (isEnabled w)) = (logcat w ++ extra)%list /\
    (extra = [] <-> exists f, node w = Some f /\ readable f = true) /\
    (extra.*1 = [WARNING] <-> node w = None) /\
    (extra.*1 = [ERROR] <-> exists f, node w = Some f /\ readable f = false).
Proof.
  destruct (node w) as [f|] eqn:Hn.
  - destruct (readable f) eqn:Hr.
    + exists []. rewrite (isEnabled_read w f Hn Hr). cbn. rewrite app_nil_r.
      repeat split; try done. by exists f.
      intros (g & Hg & Hgr). congruence.
    + eexists. rewrite (isEnabled_read_fails w f Hn Hr). cbn.
      repeat split; try done. intros (g & Hg & Hgr). congruence.
      by exists f.
  - eexists. rewrite (isEnabled_missing w Hn). cbn.
    repeat split; try done; by intros (g & Hg & _).
Qed.

(** X11: [setEnabled] writes no log line exactly when the write went
    through; it writes one warning exactly when the node is absent and one
    error exactly when the node is there and the write is refused. *)
Theorem setEnabled_log (x : bool) (w : World) :
  exists extra,
    logcat (after (setEnabled x w)) = (logcat w ++ extra)%list /\
    (extra = [] <-> exists f, node w = Some f /\ writable f = true) /\
    (extra.*1 = [WARNING] <-> node w = None) /\
    (extra.*1 = [ERROR] <-> exists f, node w = Some f /\ writable f = false).
Proof.
  destruct (node w) as [f|] eqn:Hn.
  - destruct (writable f) eqn:Hw.
    + exists []. rewrite (setEnabled_written w x f Hn Hw). cbn.
      rewrite app_nil_r.
      repeat split; try done. by exists f.
      intros (g & Hg & Hgw). congruence.
    + eexists. rewrite (setEnabled_write_fails w x f Hn Hw). cbn.
      repeat split; try done. intros (g & Hg & Hgw). congruence.
      by exists f.
  - eexists. rewrite (setEnabled_missing w x Hn). cbn.
    repeat split; try done; by intros (g & Hg & _).
Qed.

Lemma dispatch_log (c : Call) (w : World) :
  exists extra,
    logcat (after (dispatch c w)) = (logcat w ++ extra)%list /\
    (length extra <= 1)%nat.
Proof.
  rewrite after_dispatch. destruct c as [|t| |x].
  - exists []. by rewrite app_nil_r; auto.
  - exists []. by rewrite app_nil_r; auto.
  - destruct (node w) as [f|] eqn:Hn.
    + destruct (readable f) eqn:Hr.
      * exists []. rewrite (isEnabled_read w f Hn Hr), app_nil_r. auto.
      * eexists. rewrite (isEnabled_read_fails w f Hn Hr). cbn. auto.
    + eexists. rewrite (isEnabled_missing w Hn). cbn. auto.
  - destruct (node w) as [f|] eqn:Hn.
    + destruct (writable f) eqn:Hw.
      * exists []. rewrite (setEnabled_written w x f Hn Hw). cbn.
        rewrite app_nil_r. auto.
      * eexists. rewrite (setEnabled_write_fails w x f Hn Hw). cbn. auto.
    + eexists. rewrite (setEnabled_missing w x Hn). cbn. auto.
Qed.

(** X12: a sequence of calls only appends to the log, and at most one line
    per call. *)
Theorem serve_log_grows (cs : list Call) (w : World) :
  exists extra,
    logcat (after (serve cs w)) = (logcat w ++ extra)%list /\
    (length extra <= length cs)%nat.
Proof.
  revert w. induction cs as [|c cs IH]; intros w.
  - exists []. split; [by rewrite app_nil_r|done].
  - rewrite after_serve_cons.
    destruct (dispatch_log c w) as (e1 & E1 & L1).
    destruct (IH (after (dispatch c w))) as (e2 & E2 & L2).
    exists (e1 ++ e2)%list. rewrite E2, E1, <- app_assoc. split; [done|].
    rewrite length_app. cbn. lia.
Qed.

(** ** What the methods look at *)

(** X13: [isEnabled] and [setEnabled] look at the control node only: in two
    worlds with the same node, whatever the other files and the log,
    [isEnabled] gives the same answer and [setEnabled] leaves the same
    node. *)
Theorem node_is_all_they_see (x : bool) (w1 w2 : World) :
  node w1 = node w2 ->
  result (isEnabled w1) = result (isEnabled w2) /\
  node (after (setEnabled x w1)) = node (after (setEnabled x w2)).
Proof.
  intros E. split.
  - destruct (node w1) as [f|] eqn:Hn.
    + symmetry in E. destruct (readable f) eqn:Hr.
      * by rewrite (isEnabled_read w1 f Hn Hr), (isEnabled_read w2 f E Hr).
      * by rewrite (isEnabled_read_fails w1 f Hn Hr),
                   (isEnabled_read_fails w2 f E Hr).
    + symmetry in E.
      by rewrite (isEnabled_missing w1 Hn), (isEnabled_missing w2 E).
  - by rewrite !setEnabled_node, E.
Qed.

Lemma node_is_all_they_see_witness :
  let f := mkFile disable_line true true in
  let w1 := only_node f in
  let w2 := with_neighbour f (mkFile "enable" true false) in
  node w1 = node w2 /\
  result (isEnabled w1) = result (isEnabled w2) /\
  node (after (setEnabled true w1)) = node (after (setEnabled true w2)).
Proof.
  split; [reflexivity|].
  apply (node_is_all_they_see true
           (only_node (mkFile disable_line true true))
           (with_neighbour (mkFile disable_line true true)
                           (mkFile "enable" true false))).
  reflexivity.
Defined.
